(** * kitten: a model of [kitten/__init__.py] and its dispatcher

    The development embeds the program in three layers:
    - pure helpers ([chunks], [basename], [splitlines], the colouring
      functions) as total functions on lists, strings and integers;
    - the sequential operations ([ip], [run], [put], [get]) in a small
      state-and-exception monad [M] whose state records the observable
      effects (log lines, library calls, directories created);
    - the dispatcher of [main] (task queue, stop flag, worker threads) as an
      executable small-step machine driven by an explicit schedule, so that
      every interleaving of the main thread, the workers and a keyboard
      interrupt is a schedule. *)

From Stdlib Require Import ZArith Lia Ascii.
From stdpp Require Import base list strings pretty.

Set Default Proof Using "Type".

(** ** Python values, exceptions *)

(** The exceptions the program can meet.  [queue.Empty] is the only one the
    worker loop catches; whatever fabric or boto3 raise is a
    [LibraryError]. *)
Inductive exn :=
  | QueueEmpty
  | OSError (msg : string)
  | ValueError (msg : string)
  | TypeError (msg : string)
  | UnboundLocalError (msg : string)
  | LibraryError (msg : string).

Definition str_exn (e : exn) : string :=
  match e with
  | QueueEmpty => ""
  | OSError m | ValueError m | TypeError m | UnboundLocalError m
  | LibraryError m => m
  end.

Definition is_OSError (e : exn) : bool :=
  match e with OSError _ => true | _ => false end.

Inductive result (A : Type) :=
  | Ret (a : A)
  | Raise (e : exn).
Arguments Ret {A} a.
Arguments Raise {A} e.


(** What a library call answers: a value, or a failure with its message. *)
Inductive answer (A : Type) :=
  | Answer (a : A)
  | Failure (msg : string).
Arguments Answer {A} a.
Arguments Failure {A} msg.

(** The values that reach [log.info] in [print_ips]: an address is a string
    or [None], and [public] is a boolean. *)
Inductive pyval :=
  | PyNone
  | PyBool (b : bool)
  | PyStr (s : string).

Definition truthy (v : pyval) : bool :=
  match v with
  | PyNone => false
  | PyBool b => b
  | PyStr s => negb (String.eqb s "")
  end.

Definition py_and (x y : pyval) : pyval := if truthy x then y else x.
Definition py_or (x y : pyval) : pyval := if truthy x then x else y.

Definition py_of_option (o : option string) : pyval :=
  match o with Some s => PyStr s | None => PyNone end.

(** ** [range] and slicing *)

(** [range(start, stop, step)] for a non-zero step. *)
Definition range (start stop step : Z) : list Z :=
  let count :=
    if (0 <? step)%Z then ((stop - start + step - 1) / step)%Z
    else ((start - stop - step - 1) / (- step))%Z in
  map (λ k, (start + Z.of_nat k * step)%Z) (seq 0 (Z.to_nat count)).

(** A slice bound is clamped to the list, a negative one counted from the
    end. *)
Definition clamp (len i : Z) : Z :=
  if (i <? 0)%Z then Z.max 0 (i + len) else Z.min i len.

(** [l[i:j]] *)
Definition slice {A} (l : list A) (i j : Z) : list A :=
  let len := Z.of_nat (length l) in
  let lo := clamp len i in
  let hi := clamp len j in
  take (Z.to_nat (hi - lo)) (drop (Z.to_nat lo) l).

(** [chunks(l, n)], with the generator run to its end.  [range] refuses a
    zero step. *)
Definition chunks {A} (l : list A) (n : Z) : result (list (list A)) :=
  if (n =? 0)%Z then Raise (ValueError "range() arg 3 must not be zero")
  else Ret (map (λ i, slice l i (i + n)) (range 0 (Z.of_nat (length l)) n)).

Definition CHUNK_SIZE : Z := 100.

(** ** Strings *)

Definition tab : string := String (ascii_of_nat 9) "".
Definition esc : string := String (ascii_of_nat 27) "".

(** [s.rfind("/")]: the index of the last slash, or -1. *)
Fixpoint rfind_slash_from (i : Z) (last : Z) (s : string) : Z :=
  match s with
  | EmptyString => last
  | String c r =>
      rfind_slash_from (i + 1) (if Ascii.eqb c "/" then i else last) r
  end.
Definition rfind_slash (s : string) : Z := rfind_slash_from 0 (-1) s.

(** [s[i:]] for [0 <= i]. *)
Fixpoint string_drop (n : nat) (s : string) : string :=
  match n, s with
  | O, _ => s
  | S n', EmptyString => EmptyString
  | S n', String _ r => string_drop n' r
  end.

(** [os.path.basename(p)] is [p[p.rfind("/") + 1:]]. *)
Definition basename (p : string) : string :=
  string_drop (Z.to_nat (rfind_slash p + 1)) p.

(** The line boundaries of [str.splitlines] that are single ASCII
    characters: LF, VT, FF, FS, GS, RS (CR is handled apart, with CR LF). *)
Definition is_linebreak (c : ascii) : bool :=
  let n := nat_of_ascii c in
  (n =? 10) || (n =? 11) || (n =? 12) || (n =? 28) || (n =? 29) || (n =? 30).
Definition is_cr (c : ascii) : bool := nat_of_ascii c =? 13.
Definition is_lf (c : ascii) : bool := nat_of_ascii c =? 10.

Fixpoint splitlines_from (cur : string) (s : string) : list string :=
  match s with
  | EmptyString => if String.eqb cur "" then [] else [cur]
  | String c r =>
      if is_cr c then
        match r with
        | String c2 r2 =>
            if is_lf c2 then cur :: splitlines_from "" r2
            else cur :: splitlines_from "" r
        | EmptyString => [cur]
        end
      else if is_linebreak c then cur :: splitlines_from "" r
      else splitlines_from (cur +:+ String c "") r
  end.
Definition splitlines (s : string) : list string := splitlines_from "" s.

(** ** The outside world *)

Record Connection := {
  host : string;
  user : string;
  connect_timeout : Z;
  key_filename : option string;
  auth_timeout : Z;
  banner_timeout : Z;
}.

(** What [c.run] and [c.sudo] return. *)
Record RunResult := { ok : bool; stdout : string }.

(** An EC2 instance as [instance_ids_to_ips] reads it. *)
Record Instance := {
  public_ip_address : option string;
  private_ip_address : option string;
}.

(** The two description responses, cut down to the keys the program reads. *)
Record InstanceRef := { InstanceId : string }.
Record AutoScalingGroup := { asg_Instances : list InstanceRef }.
Record LoadBalancerDescription := { elb_Instances : list InstanceRef }.

(** The observable effects, in the order they happen; a library call is
    recorded with what it answered. *)
Inductive Effect :=
  | Info (v : pyval)                                   (* log.info(v) *)
  | Mkdir (path : string)                              (* os.mkdir(path) *)
  | SshRun (c : Connection) (command : string) (sudo : bool)
      (a : answer RunResult)                           (* c.run, c.sudo *)
  | SftpPut (c : Connection) (local remote : string) (a : answer unit)
  | SftpGet (c : Connection) (remote local : string) (a : answer unit)
  | DescribeAsgs (region : option string) (names : list string)
      (resp : list AutoScalingGroup)
  | DescribeElbs (region : option string) (names : list string)
      (resp : list LoadBalancerDescription)
  | FilterInstances (region : option string) (ids : list string)
      (resp : list Instance).

(** The libraries and the terminal.  Every answer may depend on what has
    happened so far. *)
Record World := {
  isatty : bool;
  ssh_exec : list Effect → Connection → string → bool → answer RunResult;
  sftp_put : list Effect → Connection → string → string → answer unit;
  sftp_get : list Effect → Connection → string → string → answer unit;
  describe_auto_scaling_groups :
    list Effect → option string → list string → list AutoScalingGroup;
  describe_load_balancers :
    list Effect → option string → list string → list LoadBalancerDescription;
  instances_filter :
    list Effect → option string → list string → list Instance;
}.

(** The state the operations act on: the effects so far and the local
    directories that exist. *)
Record Sys := { trace : list Effect; dirs : list string }.

Definition sys0 : Sys := {| trace := []; dirs := [] |}.

(** ** The monad of the sequential code *)

Definition M (A : Type) : Type := Sys → result A * Sys.

Definition ret {A} (a : A) : M A := λ s, (Ret a, s).
Definition raise {A} (e : exn) : M A := λ s, (Raise e, s).
Definition bind {A B} (m : M A) (k : A → M B) : M B :=
  λ s, match m s with
       | (Ret a, s') => k a s'
       | (Raise e, s') => (Raise e, s')
       end.

Declare Scope m_scope.
Delimit Scope m_scope with M.
Notation "x <- m ;; k" := (bind m (λ x, k))
  (at level 100, m at next level, right associativity) : m_scope.
Notation "m ;;; k" := (bind m (λ _, k))
  (at level 100, right associativity) : m_scope.
Local Open Scope m_scope.

Definition get_sys : M Sys := λ s, (Ret s, s).
Definition emit (e : Effect) : M unit :=
  λ s, (Ret tt, {| trace := trace s ++ [e]; dirs := dirs s |}).

(** [for x in l: body(x)] *)
Fixpoint for_each {A} (l : list A) (body : A → M unit) : M unit :=
  match l with
  | [] => ret tt
  | x :: l' => body x ;;; for_each l' body
  end.

(** [try: body / except <caught>: handler(e) / else: orelse] *)
Definition try_except_else {A} (body : M A) (caught : exn → bool)
    (handler : exn → M unit) (orelse : M unit) : M unit :=
  λ s, match body s with
       | (Ret _, s') => orelse s'
       | (Raise e, s') => if caught e then handler e s' else (Raise e, s')
       end.

(** Every exception of [exn] derives from [Exception]. *)
Definition is_Exception (e : exn) : bool := true.

Definition of_answer {A} (a : answer A) : M A :=
  match a with
  | Answer x => ret x
  | Failure msg => raise (LibraryError msg)
  end.

(** ** The sequential operations *)

Section Operations.
Context (W : World).

(** *** Colours *)

Definition color (s : string) (code : Z) : string :=
  if isatty W then esc +:+ "[" +:+ pretty code +:+ "m" +:+ s +:+ esc +:+ "[0m"
  else s.

Definition red (s : string) : string := color s 31.
Definition green (s : string) : string := color s 32.
Definition yellow (s : string) : string := color s 33.

Definition OK : string := green "ok".
Definition FAIL : string := red "fail".

(** *** The [ip] helper *)

(** The dictionaries [instance_ids_to_ips] yields. *)
Record Ips := { ips_public : pyval; ips_private : pyval }.

Definition ips_of_instance (instance : Instance) : Ips :=
  {| ips_public := py_of_option (public_ip_address instance);
     ips_private := py_of_option (private_ip_address instance) |}.

Definition instance_ids_to_ips (region : option string)
    (instance_ids : list string) : M (list Ips) :=
  s <- get_sys ;;
  let resp := instances_filter W (trace s) region instance_ids in
  emit (FilterInstances region instance_ids resp) ;;;
  ret (map ips_of_instance resp).

Definition asgs_to_instance_ids (region : option string)
    (asg_names : list string) : M (list string) :=
  s <- get_sys ;;
  let asgs := describe_auto_scaling_groups W (trace s) region asg_names in
  emit (DescribeAsgs region asg_names asgs) ;;;
  ret (concat (map (λ asg, map InstanceId (asg_Instances asg)) asgs)).

Definition elbs_to_instance_ids (region : option string)
    (elb_names : list string) : M (list string) :=
  s <- get_sys ;;
  let elbs := describe_load_balancers W (trace s) region elb_names in
  emit (DescribeElbs region elb_names elbs) ;;;
  ret (concat (map (λ elb, map InstanceId (elb_Instances elb)) elbs)).

(** The value [print_ips] logs for one instance:
    [public and ip["public"] or ip["private"]]. *)
Definition shown_ip (public : bool) (ip : Ips) : pyval :=
  py_or (py_and (PyBool public) (ips_public ip)) (ips_private ip).

(** [instance_ids] is a list ([ret values]) or a generator that is run by
    [list(instance_ids)]. *)
Definition print_ips (region : option string) (instance_ids : M (list string))
    (public : bool) : M unit :=
  ids <- instance_ids ;;
  match chunks ids CHUNK_SIZE with
  | Raise e => raise e
  | Ret cs =>
      for_each cs (λ chunk,
        ips <- instance_ids_to_ips region chunk ;;
        for_each ips (λ ip, emit (Info (shown_ip public ip))))
  end.

Definition ip (values : list string) (kind : string) (public : bool)
    (region_name : option string) : M unit :=
  if String.eqb kind "id" then
    print_ips region_name (ret values) public
  else if String.eqb kind "asg" then
    print_ips region_name (asgs_to_instance_ids region_name values) public
  else if String.eqb kind "elb" then
    print_ips region_name (elbs_to_instance_ids region_name values) public
  else raise (UnboundLocalError "instance_ids").

(** *** The remote operations *)

Definition print_conn (conn : Connection) (s : string) : M unit :=
  for_each (splitlines s)
    (λ line, emit (Info (PyStr (yellow (host conn) +:+ tab +:+ line)))).

(** [c.sudo(command, ...)] or [c.run(command, ...)] *)
Definition c_run (conn : Connection) (command : string) (sudo : bool)
    : M RunResult :=
  s <- get_sys ;;
  let a := ssh_exec W (trace s) conn command sudo in
  emit (SshRun conn command sudo a) ;;;
  of_answer a.

Definition c_put (conn : Connection) (local remote : string) : M unit :=
  s <- get_sys ;;
  let a := sftp_put W (trace s) conn local remote in
  emit (SftpPut conn local remote a) ;;;
  of_answer a.

Definition c_get (conn : Connection) (remote local : string) : M unit :=
  s <- get_sys ;;
  let a := sftp_get W (trace s) conn remote local in
  emit (SftpGet conn remote local a) ;;;
  of_answer a.

(** [os.mkdir(path)]: refuses a directory that exists. *)
Definition os_mkdir (path : string) : M unit :=
  λ s, let s' := {| trace := trace s ++ [Mkdir path]; dirs := dirs s |} in
       if bool_decide (path ∈ dirs s) then (Raise (OSError "File exists"), s')
       else (Ret tt, {| trace := trace s'; dirs := path :: dirs s |}).

Definition run (conn : Connection) (command : string) (sudo : bool) : M unit :=
  print_conn conn (yellow "run" +:+ tab +:+ command) ;;;
  result <- c_run conn command sudo ;;
  print_conn conn (if ok result then OK else FAIL) ;;;
  print_conn conn (stdout result).

Definition put (conn : Connection) (local remote : string) : M unit :=
  print_conn conn (yellow "put" +:+ tab +:+ local +:+ tab +:+ remote) ;;;
  try_except_else (c_put conn local remote) is_Exception
    (λ e, print_conn conn FAIL ;;; print_conn conn (str_exn e))
    (print_conn conn OK).

(** The local path [get] downloads to. *)
Definition get_local (conn : Connection) (remote : string) : string :=
  host conn +:+ "/" +:+ basename remote.

Definition get (conn : Connection) (remote : string) : M unit :=
  let local := get_local conn remote in
  print_conn conn (yellow "get" +:+ tab +:+ remote +:+ tab +:+ local) ;;;
  try_except_else (os_mkdir (host conn)) is_OSError (λ _, ret tt) (ret tt) ;;;
  try_except_else (c_get conn remote local) is_Exception
    (λ e, print_conn conn FAIL ;;; print_conn conn (str_exn e))
    (print_conn conn OK).

(** *** Tasks *)

(** The parsed command line of the [run], [get] and [put] tools. *)
Record Args := {
  tool : string;
  hosts : list string;
  a_user : string;
  timeout : Z;
  threads : Z;
  i : option string;
  command : string;
  sudo : bool;
  local : string;
  remote : string;
}.

(** A task is a [functools.partial] object: a function of the program with
    all its arguments bound. *)
Inductive Task :=
  | PartialRun (conn : Connection) (command : string) (sudo : bool)
  | PartialGet (conn : Connection) (remote : string)
  | PartialPut (conn : Connection) (local remote : string).

(** [task()] *)
Definition call (t : Task) : M unit :=
  match t with
  | PartialRun conn command sudo => run conn command sudo
  | PartialGet conn remote => get conn remote
  | PartialPut conn local remote => put conn local remote
  end.

Definition connection (args : Args) (h : string) : Connection :=
  {| host := h;
     user := a_user args;
     connect_timeout := timeout args;
     key_filename := i args;
     auth_timeout := timeout args;
     banner_timeout := timeout args |}.

(** [get_tasks(args)]; [None] is Python's [None], returned when no branch
    is taken. *)
Definition get_tasks (args : Args) : option (list Task) :=
  let conns := map (connection args) (hosts args) in
  if String.eqb (tool args) "run" then
    Some (map (λ conn, PartialRun conn (command args) (sudo args)) conns)
  else if String.eqb (tool args) "get" then
    Some (map (λ conn, PartialGet conn (remote args)) conns)
  else if String.eqb (tool args) "put" then
    Some (map (λ conn, PartialPut conn (local args) (remote args)) conns)
  else None.

End Operations.

(** ** The dispatcher *)

(** Where a worker thread stands in [worker()]. *)
Inductive wpc :=
  | WCheck                        (* at [while not stop.is_set()] *)
  | WGet                          (* the test passed; at [tasks.get_nowait()] *)
  | WRun (id : nat) (t : Task)    (* inside [task()] *)
  | WExit                         (* [worker()] returned *)
  | WDied (e : exn).              (* an exception left [worker()] *)

(** Where the main thread stands in the [else] branch of [main()].  Queue
    entries carry the position of the task in the list [get_tasks]
    returned: it stands for the identity of the [partial] object. *)
Inductive mpc :=
  | MPut (rest : list (nat * Task))  (* in [for task in get_tasks(args)] *)
  | MSpawn (k : nat)              (* first loop of [run_workers], k to go *)
  | MJoin (j : nat)               (* second loop of [run_workers] *)
  | MReturned                     (* [run_workers] returned, [main] is over *)
  | MExcept                       (* [KeyboardInterrupt] caught *)
  | MStopped                      (* the handler has run [stop.set()] *)
  | MCrashed (rest : list (nat * Task)).
                                  (* an exception left [main]; [rest] was
                                     never put *)

Inductive reason :=
  | SawStop                       (* [stop.is_set()] was true *)
  | SawEmpty                      (* [get_nowait] raised [queue.Empty] *)
  | TaskRaisedEmpty.              (* [queue.Empty] came out of the task *)

(** The history of the run, kept for the statements only. *)
Inductive Event :=
  | EvPut (id : nat)
  | EvStart (w : nat)
  | EvJoined (w : nat)
  | EvReturn
  | EvStop
  | EvDequeue (w id : nat) (t : Task)
  | EvDone (w id : nat)
  | EvRaised (w id : nat) (e : exn)
  | EvExit (w : nat) (r : reason)
  | EvDied (w : nat) (e : exn).

Record Pool := {
  main : mpc;
  tasks : list (nat * Task);      (* the items of [tasks], oldest first *)
  unfinished_tasks : nat;         (* the counter [task_done] decrements *)
  stop : bool;                    (* the [stop] event *)
  workers : list wpc;             (* the threads started, in order *)
  sys : Sys;
  history : list Event;
}.

Definition set_main (m : mpc) (s : Pool) : Pool :=
  {| main := m; tasks := tasks s; unfinished_tasks := unfinished_tasks s;
     stop := stop s; workers := workers s; sys := sys s;
     history := history s |}.
Definition set_tasks (q : list (nat * Task)) (s : Pool) : Pool :=
  {| main := main s; tasks := q; unfinished_tasks := unfinished_tasks s;
     stop := stop s; workers := workers s; sys := sys s;
     history := history s |}.
Definition set_unfinished (u : nat) (s : Pool) : Pool :=
  {| main := main s; tasks := tasks s; unfinished_tasks := u;
     stop := stop s; workers := workers s; sys := sys s;
     history := history s |}.
Definition set_stop (b : bool) (s : Pool) : Pool :=
  {| main := main s; tasks := tasks s; unfinished_tasks := unfinished_tasks s;
     stop := b; workers := workers s; sys := sys s; history := history s |}.
Definition set_workers (ws : list wpc) (s : Pool) : Pool :=
  {| main := main s; tasks := tasks s; unfinished_tasks := unfinished_tasks s;
     stop := stop s; workers := ws; sys := sys s; history := history s |}.
Definition set_sys (y : Sys) (s : Pool) : Pool :=
  {| main := main s; tasks := tasks s; unfinished_tasks := unfinished_tasks s;
     stop := stop s; workers := workers s; sys := y; history := history s |}.
Definition note (e : Event) (s : Pool) : Pool :=
  {| main := main s; tasks := tasks s; unfinished_tasks := unfinished_tasks s;
     stop := stop s; workers := workers s; sys := sys s;
     history := history s ++ [e] |}.
Definition set_worker (w : nat) (pc : wpc) (s : Pool) : Pool :=
  set_workers (<[w := pc]> (workers s)) s.

(** [thread.is_alive()] *)
Definition alive (pc : wpc) : bool :=
  match pc with
  | WExit | WDied _ => false
  | _ => true
  end.

(** Who moves next. *)
Inductive actor :=
  | Main
  | Worker (w : nat)
  | Interrupt.                    (* Ctrl-C reaches the main thread *)

Definition enumerate {A} (l : list A) : list (nat * A) :=
  zip (seq 0 (length l)) l.

Section Dispatcher.
Context (W : World) (args : Args).

(** [min(args.threads, len(args.hosts))] *)
Definition num_workers : Z :=
  Z.min (threads args) (Z.of_nat (length (hosts args))).

(** The state on entry to the [else] branch; [d] are the local directories
    that exist.  Iterating over [None] is a [TypeError]. *)
Definition init (d : list string) : Pool :=
  {| main := match get_tasks args with
             | Some ts => MPut (enumerate ts)
             | None => MCrashed []
             end;
     tasks := []; unfinished_tasks := 0; stop := false; workers := [];
     sys := {| trace := []; dirs := d |}; history := [] |}.

(** What leaving the [try] of the worker loop with exception [e] does to
    the thread: [except queue.Empty: break], anything else kills it. *)
Definition after_exn (e : exn) : wpc :=
  match e with
  | QueueEmpty => WExit
  | _ => WDied e
  end.
Definition exn_event (w : nat) (e : exn) : Event :=
  match e with
  | QueueEmpty => EvExit w TaskRaisedEmpty
  | _ => EvDied w e
  end.
Definition leave_try (w : nat) (e : exn) (s : Pool) : Pool :=
  note (exn_event w e) (set_worker w (after_exn e) s).

(** [tasks.task_done()] *)
Definition task_done (s : Pool) : result Pool :=
  match unfinished_tasks s with
  | O => Raise (ValueError "task_done() called too many times")
  | S u => Ret (set_unfinished u s)
  end.

(** One step of thread [w] in [worker()]: the flag test, [get_nowait], or
    the call of the task it took with the [task_done] that follows.  The
    effects of a task are added when its call ends; between the steps of
    one thread any other thread may move. *)
Definition worker_step (w : nat) (s : Pool) : option Pool :=
  match workers s !! w with
  | None => None
  | Some WCheck =>
      if stop s then Some (note (EvExit w SawStop) (set_worker w WExit s))
      else Some (set_worker w WGet s)
  | Some WGet =>
      match tasks s with
      | [] => Some (note (EvExit w SawEmpty) (set_worker w WExit s))
      | (id, t) :: q =>
          Some (note (EvDequeue w id t)
                  (set_worker w (WRun id t) (set_tasks q s)))
      end
  | Some (WRun id t) =>
      match call W t (sys s) with
      | (Ret _, y) =>
          let s1 := note (EvDone w id) (set_sys y s) in
          match task_done s1 with
          | Ret s2 => Some (set_worker w WCheck s2)
          | Raise e => Some (leave_try w e s1)
          end
      | (Raise e, y) =>
          Some (leave_try w e (note (EvRaised w id e) (set_sys y s)))
      end
  | Some WExit | Some (WDied _) => None
  end.

(** One step of the main thread in the [else] branch of [main()]: a
    [put_nowait], [min(...)] on entering the [try], one iteration of the
    first or of the second loop of [run_workers], or the handler of
    [KeyboardInterrupt]. *)
Definition main_step (s : Pool) : option Pool :=
  match main s with
  | MPut [] => Some (set_main (MSpawn (Z.to_nat num_workers)) s)
  | MPut ((id, t) :: rest) =>
      Some (note (EvPut id)
              (set_main (MPut rest)
                 (set_unfinished (S (unfinished_tasks s))
                    (set_tasks (tasks s ++ [(id, t)]) s))))
  | MSpawn O => Some (set_main (MJoin 0) s)
  | MSpawn (S k) =>
      Some (note (EvStart (length (workers s)))
              (set_main (MSpawn k) (set_workers (workers s ++ [WCheck]) s)))
  | MJoin j =>
      match workers s !! j with
      | None => Some (note EvReturn (set_main MReturned s))
      | Some pc =>
          if alive pc then Some s       (* [thread.join(1)] timed out *)
          else Some (note (EvJoined j) (set_main (MJoin (S j)) s))
      end
  | MExcept =>
      let y := snd (emit (Info (PyStr (red W "terminating"))) (sys s)) in
      Some (note EvStop (set_main MStopped (set_stop true (set_sys y s))))
  | MReturned | MStopped | MCrashed _ => None
  end.

(** A keyboard interrupt is caught inside the [try] only. *)
Definition interrupt_step (s : Pool) : option Pool :=
  match main s with
  | MSpawn _ | MJoin _ => Some (set_main MExcept s)
  | MPut r => Some (set_main (MCrashed r) s)
  | MExcept => Some (set_main (MCrashed []) s)
  | MReturned | MStopped | MCrashed _ => None
  end.

(** [None]: the thread has ended and cannot move. *)
Definition step (a : actor) (s : Pool) : option Pool :=
  match a with
  | Main => main_step s
  | Worker w => worker_step w s
  | Interrupt => interrupt_step s
  end.

(** Running a schedule. *)
Fixpoint exec (sched : list actor) (s : Pool) : option Pool :=
  match sched with
  | [] => Some s
  | a :: sched' =>
      match step a s with
      | Some s' => exec sched' s'
      | None => None
      end
  end.

(** The states of all runs. *)
Inductive reachable (d : list string) : Pool → Prop :=
  | reach_init : reachable d (init d)
  | reach_step s a s' :
      reachable d s → step a s = Some s' → reachable d s'.

End Dispatcher.

(** * The vocabulary of the statements

    Observations on traces and histories, the invariants of the dispatcher,
    example worlds and schedules, and the properties proved below.  [W] and
    [args] are the world and the command line throughout. *)

Section Vocabulary.
Context (W : World) (args : Args).

#[local] Abbreviation N := (Z.to_nat (num_workers args)).

(** ** Observations on traces *)






(** The number of chunks: [len(range(0, len(l), n))] for [n > 0]. *)
Definition chunk_count {A} (l : list A) (n : Z) : nat :=
  Z.to_nat ((Z.of_nat (length l) - 0 + n - 1) / n).

(** The state after more effects, the directories unchanged. *)
Definition extend (s : Sys) (tr : list Effect) : Sys :=
  {| trace := trace s ++ tr; dirs := dirs s |}.

(** What [print_conn(conn, str)] logs. *)
Definition conn_lines (conn : Connection) (str : string) : list Effect :=
  map (λ line, Info (PyStr (yellow W (host conn) +:+ tab +:+ line)))
      (splitlines str).

(** ** Tasks and their remote operation *)

(** The connection and the tool a task was built for. *)
Definition task_conn (t : Task) : Connection :=
  match t with
  | PartialRun c _ _ | PartialGet c _ | PartialPut c _ _ => c
  end.

Definition task_tool (t : Task) : string :=
  match t with
  | PartialRun _ _ _ => "run"
  | PartialGet _ _ => "get"
  | PartialPut _ _ _ => "put"
  end.

(** The calls that go to a remote host. *)
Definition is_remote (e : Effect) : bool :=
  match e with
  | SshRun _ _ _ _ | SftpPut _ _ _ _ | SftpGet _ _ _ _ => true
  | _ => false
  end.
Definition remote_ops (tr : list Effect) : list Effect :=
  List.filter is_remote tr.


(** The messages after a transfer: [ok], or [fail] and the error. *)
Definition outcome_lines (conn : Connection) (a : answer unit) : list Effect :=
  match a with
  | Answer _ => conn_lines conn (OK W)
  | Failure msg => conn_lines conn (FAIL W) ++ conn_lines conn msg
  end.

(** The directories after [get] tried [os.mkdir(host)]. *)
Definition dirs_with (h : string) (ds : list string) : list string :=
  if bool_decide (h ∈ ds) then ds else h :: ds.








(** ** Observations on histories *)

(** The tasks taken from the queue, in order. *)
Definition dequeued (h : list Event) : list (nat * Task) :=
  omap (λ e, match e with EvDequeue _ id t => Some (id, t) | _ => None end) h.

(** The tasks put in the queue, in order. *)
Definition put_ids (h : list Event) : list nat :=
  omap (λ e, match e with EvPut id => Some id | _ => None end) h.

(** The tasks that returned. *)
Definition done_ids (h : list Event) : list nat :=
  omap (λ e, match e with EvDone _ id => Some id | _ => None end) h.

(** The tasks whose call is over: they returned or raised. *)
Definition finished_ids (h : list Event) : list nat :=
  omap (λ e, match e with
             | EvDone _ id | EvRaised _ id _ => Some id
             | _ => None
             end) h.

(** What the main thread did. *)
Definition main_events (h : list Event) : list Event :=
  omap (λ e, match e with
             | EvPut _ | EvStart _ | EvJoined _ | EvReturn | EvStop => Some e
             | _ => None
             end) h.

(** What is left for the main thread to put. *)
Definition rest (s : Pool) : list (nat * Task) :=
  match main s with MPut r | MCrashed r => r | _ => [] end.

(** The task a thread is running, if any. *)
Definition run_id (pc : wpc) : list nat :=
  match pc with WRun id _ => [id] | _ => [] end.

(** The tasks being run. *)
Definition running_ids (ws : list wpc) : list nat := concat (map run_id ws).

(** Has [stop.set()] happened? *)
Definition stopped (h : list Event) : bool :=
  existsb (λ e, match e with EvStop => true | _ => false end) h.

(** The events after [stop.set()]. *)
Fixpoint after_stop (h : list Event) : list Event :=
  match h with
  | [] => []
  | EvStop :: h' => h'
  | _ :: h' => after_stop h'
  end.

(** The tasks worker [w] took from the queue. *)
Definition begun_by (w : nat) (h : list Event) : list nat :=
  omap (λ e, match e with
             | EvDequeue w' id _ => if decide (w' = w) then Some id else None
             | _ => None
             end) h.

(** The tasks of [get_tasks(args)], numbered. *)
Definition all_tasks (args : Args) : list (nat * Task) :=
  enumerate (default [] (get_tasks args)).



(** What thread [w] has left to do at most. *)
Definition work_left (w : nat) (s : Pool) : nat :=
  3 * length (tasks s)
  + match workers s !! w with
    | Some WCheck => 2
    | Some WGet => 1
    | Some (WRun _ _) => 3
    | _ => 0
    end.

(** ** Invariants of the dispatcher *)

(** The queue, the puts, the stop flag and the number of threads. *)
Record basic_inv (s : Pool) : Prop := {
  inv_queue : dequeued (history s) ++ tasks s ++ rest s = all_tasks args;
  inv_puts : put_ids (history s) = map fst (dequeued (history s) ++ tasks s);
  inv_stop : stop s = stopped (history s);
  inv_main :
    match main s with
    | MPut _ => workers s = [] ∧ stop s = false
    | MSpawn k => length (workers s) + k = N ∧ stop s = false
    | MJoin _ | MReturned => length (workers s) = N ∧ stop s = false
    | MExcept | MCrashed _ => length (workers s) ≤ N ∧ stop s = false
    | MStopped => length (workers s) ≤ N ∧ stop s = true
    end;
  inv_rest : workers s = [] ∨ rest s = [];
}.

(** Every task taken from the queue has finished or is being run; the
    counter of unfinished tasks is the number of puts minus the number of
    [task_done] calls. *)
Record running_inv (s : Pool) : Prop := {
  inv_running :
    map fst (dequeued (history s))
    ≡ₚ finished_ids (history s) ++ running_ids (workers s);
  inv_unfinished :
    unfinished_tasks s + length (done_ids (history s))
    = length (put_ids (history s));
  inv_run :
    ∀ w id t, workers s !! w = Some (WRun id t) →
              (id, t) ∈ dequeued (history s);
}.

(** Why threads have ended. *)
Record exit_inv (s : Pool) : Prop := {
  inv_exit_event :
    ∀ w r, EvExit w r ∈ history s → workers s !! w = Some WExit;
  inv_exit_reason :
    ∀ w, workers s !! w = Some WExit → ∃ r, EvExit w r ∈ history s;
  inv_saw_stop : ∀ w, EvExit w SawStop ∈ history s → stop s = true;
  inv_saw_empty :
    ∀ w, EvExit w SawEmpty ∈ history s → tasks s = [] ∧ rest s = [];
  inv_no_task_empty : ∀ w, EvExit w TaskRaisedEmpty ∉ history s;
  inv_died :
    ∀ w e, workers s !! w = Some (WDied e) →
           ∃ id, EvRaised w id e ∈ history s;
  inv_raised :
    ∀ w id e, EvRaised w id e ∈ history s →
              ∃ t y, (id, t) ∈ dequeued (history s) ∧ (call W t y).1 = Raise e;
}.





(** ** Example worlds and command lines *)

(** Every remote call succeeds. *)
Definition calm : World :=
  {| isatty := false;
     ssh_exec := λ _ _ _ _, Answer {| ok := true; stdout := "up" |};
     sftp_put := λ _ _ _ _, Answer tt;
     sftp_get := λ _ _ _ _, Answer tt;
     describe_auto_scaling_groups := λ _ _ _, [];
     describe_load_balancers := λ _ _ _, [];
     instances_filter := λ _ _ ids,
       map (λ _, {| public_ip_address := None;
                    private_ip_address := Some "10.0.0.1" |}) ids |}.

(** As [calm], but host [h1] cannot be reached by ssh. *)
Definition h1_down : World :=
  {| isatty := false;
     ssh_exec := λ _ c _ _,
       if String.eqb (host c) "h1" then Failure "timed out"
       else Answer {| ok := true; stdout := "up" |};
     sftp_put := sftp_put calm;
     sftp_get := sftp_get calm;
     describe_auto_scaling_groups := describe_auto_scaling_groups calm;
     describe_load_balancers := describe_load_balancers calm;
     instances_filter := instances_filter calm |}.

Definition argv (tl : string) (n : Z) (hs : list string) : Args :=
  {| tool := tl; hosts := hs; a_user := "admin"; timeout := 15;
     threads := n; i := None; command := "uptime"; sudo := false;
     local := "motd"; remote := "/etc/motd" |}.

(** ** The properties of the dispatcher *)

(** No task is put twice, taken from the queue twice, or ended twice; what
    ended had been taken, and what was taken had been put. *)
Definition at_most_once (h : list Event) : Prop :=
  NoDup (put_ids h) ∧
  NoDup (map fst (dequeued h)) ∧
  NoDup (finished_ids h) ∧
  (∀ id, id ∈ finished_ids h → id ∈ map fst (dequeued h)) ∧
  (∀ id, id ∈ map fst (dequeued h) → id ∈ put_ids h).


(** The claim as the specification words it: when [run_workers] has
    returned, [min(args.threads, len(args.hosts))] threads were started. *)
Definition starts_min_threads (W : World) (args : Args) (d : list string)
    : Prop :=
  ∀ sched s, exec W args sched (init args d) = Some s →
             main s = MReturned →
             Z.of_nat (length (workers s)) = num_workers args.

(** The number of worker threads in state [s] and after one more step. *)
Definition pool_sized (W : World) (args : Args) (s : Pool) : Prop :=
  (Z.of_nat (length (workers s)) ≤ Z.max 0 (num_workers args))%Z ∧
  (match main s with
   | MJoin _ | MReturned =>
       Z.of_nat (length (workers s)) = Z.max 0 (num_workers args)
   | _ => True
   end) ∧
  (∀ a s', step W args a s = Some s' →
           (a = Main ∧ ∃ k, main s = MSpawn (S k)) ∨
           length (workers s') = length (workers s)).





(** ** Example schedules *)

(** A run of [get] on two hosts with two workers, to its end. *)
Definition full_run : list actor :=
  [Main; Main; Main; Main; Main; Main;
   Worker 0; Worker 0; Worker 0; Worker 1; Worker 1; Worker 1;
   Worker 0; Worker 0; Worker 1; Worker 1;
   Main; Main; Main].


(** ** Further observations *)

(** Does the string contain a slash? *)
Fixpoint has_slash (p : string) : bool :=
  match p with
  | EmptyString => false
  | String c r => Ascii.eqb c "/" || has_slash r
  end.

(** The tasks whose call raised. *)
Definition raised_ids (h : list Event) : list nat :=
  omap (λ e, match e with EvRaised _ id _ => Some id | _ => None end) h.


(** Is there a keyboard interrupt in the schedule? *)
Definition interrupted (sched : list actor) : bool :=
  existsb (λ a, match a with Interrupt => true | _ => false end) sched.




(** Has no [KeyboardInterrupt] been caught? *)
Definition quiet (m : mpc) : bool :=
  match m with
  | MExcept | MStopped => false
  | _ => true
  end.



End Vocabulary.

(** * Proofs *)

(** ** [chunks] *)

Section Chunks.
Context {A : Type}.
Implicit Types (l : list A) (n : Z) (k : nat).

Lemma take_min_length l k : take (k `min` length l) l = take k l.
Proof.
  destruct (Nat.le_ge_cases k (length l)) as [H|H].
  - by rewrite Nat.min_l.
  - rewrite Nat.min_r by done. by rewrite !take_ge.
Qed.

(** The [k]-th slice [chunks] takes. *)
Lemma slice_at l n k :
  (0 < n)%Z →
  slice l (0 + Z.of_nat k * n) (0 + Z.of_nat k * n + n)
  = take (Z.to_nat n) (drop (k * Z.to_nat n) l).
Proof.
  intros Hn. unfold slice, clamp.
  set (len := Z.of_nat (length l)).
  assert (Hk : (0 <= Z.of_nat k * n)%Z) by nia.
  destruct (Z.ltb_spec (0 + Z.of_nat k * n) 0) as [?|_]; [lia|].
  destruct (Z.ltb_spec (0 + Z.of_nat k * n + n) 0) as [?|_]; [lia|].
  assert (Hkn : k * Z.to_nat n = Z.to_nat (Z.of_nat k * n)).
  { rewrite Z2Nat.inj_mul by lia. by rewrite Nat2Z.id. }
  destruct (Z.le_gt_cases (Z.of_nat k * n) len) as [Hle|Hgt].
  - replace (Z.to_nat (Z.min (0 + Z.of_nat k * n) len)) with (k * Z.to_nat n)
      by (rewrite Hkn; lia).
    rewrite <- (take_min_length (drop _ _) (Z.to_nat n)), length_drop. f_equal.
    rewrite Hkn. subst len. lia.
  - rewrite Hkn. subst len. rewrite (drop_ge l (Z.to_nat (_ * _))) by lia.
    rewrite (drop_ge l (Z.to_nat _)) by lia. by rewrite !take_nil.
Qed.

Lemma chunks_unfold l n :
  (0 < n)%Z →
  chunks l n
  = Ret (map (λ k, take (Z.to_nat n) (drop (k * Z.to_nat n) l))
             (seq 0 (chunk_count l n))).
Proof.
  intros Hn. unfold chunks, range.
  destruct (Z.eqb_spec n 0) as [?|_]; [lia|].
  destruct (Z.ltb_spec 0 n) as [_|?]; [|lia].
  f_equal. rewrite map_map. apply map_ext. intros k. by apply slice_at.
Qed.


Lemma chunk_count_inside l n k :
  (0 < n)%Z → k < chunk_count l n → k * Z.to_nat n < length l.
Proof.
  intros Hn. unfold chunk_count.
  set (len := Z.of_nat (length l)). intros Hk.
  pose proof (Z.mul_div_le (len - 0 + n - 1) n Hn) as Hle.
  assert (0 <= (len - 0 + n - 1) / n)%Z.
  { destruct (Z.le_gt_cases 0 ((len - 0 + n - 1) / n)); [done|lia]. }
  nia.
Qed.


End Chunks.

(** ** Traces of the sequential operations *)

Lemma extend_nil s : extend s [] = s.
Proof. destruct s. unfold extend. simpl. by rewrite app_nil_r. Qed.

Lemma extend_extend s tr1 tr2 :
  extend (extend s tr1) tr2 = extend s (tr1 ++ tr2).
Proof. unfold extend. simpl. by rewrite app_assoc. Qed.

Lemma emit_extend e s : emit e s = (Ret tt, extend s [e]).
Proof. done. Qed.

Lemma for_each_emit {A} (f : A → Effect) (l : list A) s :
  for_each l (λ x, emit (f x)) s = (Ret tt, extend s (map f l)).
Proof.
  revert s. induction l as [|x l IH]; intros s; simpl.
  - by rewrite extend_nil.
  - unfold bind. rewrite emit_extend, IH, extend_extend. done.
Qed.

Section SequentialTraces.
Context (W : World).

Lemma print_conn_extend conn str s :
  print_conn W conn str s = (Ret tt, extend s (conn_lines W conn str)).
Proof. unfold print_conn. by rewrite for_each_emit. Qed.




End SequentialTraces.

(** ** Tasks and the remote operation they perform *)

Section TaskTraces.
Context (W : World).

Lemma remote_ops_lines conn str : remote_ops (conn_lines W conn str) = [].
Proof.
  unfold conn_lines. by induction (splitlines str) as [|x l IH].
Qed.

Lemma remote_ops_app tr1 tr2 :
  remote_ops (tr1 ++ tr2) = remote_ops tr1 ++ remote_ops tr2.
Proof. unfold remote_ops. apply List.filter_app. Qed.

Lemma run_extend conn cmd sd s :
  let pre := conn_lines W conn (yellow W "run" +:+ tab +:+ cmd) in
  let a := ssh_exec W (trace s ++ pre) conn cmd sd in
  run W conn cmd sd s
  = match a with
    | Answer r =>
        (Ret tt,
         extend s (pre ++ [SshRun conn cmd sd a]
                   ++ conn_lines W conn (if ok r then OK W else FAIL W)
                   ++ conn_lines W conn (stdout r)))
    | Failure msg =>
        (Raise (LibraryError msg), extend s (pre ++ [SshRun conn cmd sd a]))
    end.
Proof.
  simpl. unfold run, bind at 1. rewrite print_conn_extend.
  unfold bind at 1, c_run, bind at 1, get_sys, bind at 1.
  rewrite emit_extend, extend_extend. simpl.
  destruct (ssh_exec W _ conn cmd sd) as [r|msg]; simpl; [|done].
  unfold bind. rewrite !print_conn_extend, !extend_extend.
  by rewrite <- !app_assoc.
Qed.

Lemma remote_ops_outcome conn a : remote_ops (outcome_lines W conn a) = [].
Proof.
  destruct a; simpl; by rewrite ?remote_ops_app, !remote_ops_lines.
Qed.

Lemma put_extend conn loc rem s :
  let pre :=
    conn_lines W conn (yellow W "put" +:+ tab +:+ loc +:+ tab +:+ rem) in
  let a := sftp_put W (trace s ++ pre) conn loc rem in
  put W conn loc rem s
  = (Ret tt,
     extend s (pre ++ [SftpPut conn loc rem a] ++ outcome_lines W conn a)).
Proof.
  simpl. unfold put, bind at 1. rewrite print_conn_extend.
  unfold try_except_else, c_put, bind at 1, get_sys, bind at 1.
  rewrite emit_extend, extend_extend. simpl.
  destruct (sftp_put W _ conn loc rem) as [r|msg]; simpl.
  - by rewrite print_conn_extend, extend_extend, <- app_assoc.
  - unfold bind. by rewrite !print_conn_extend, !extend_extend, <- !app_assoc.
Qed.

Lemma get_extend conn rem s :
  let loc := get_local conn rem in
  let pre :=
    conn_lines W conn (yellow W "get" +:+ tab +:+ rem +:+ tab +:+ loc) in
  let a := sftp_get W (trace s ++ pre ++ [Mkdir (host conn)]) conn rem loc in
  get W conn rem s
  = (Ret tt,
     {| trace := trace s ++ pre ++ [Mkdir (host conn)]
                 ++ [SftpGet conn rem loc a] ++ outcome_lines W conn a;
        dirs := dirs_with (host conn) (dirs s) |}).
Proof.
  simpl. unfold get, bind at 1. rewrite print_conn_extend.
  unfold bind at 1, try_except_else at 1, os_mkdir, dirs_with. simpl.
  destruct (bool_decide (host conn ∈ dirs s)); simpl.
  all: unfold try_except_else, c_get, bind at 1, get_sys, bind at 1.
  all: rewrite emit_extend; simpl.
  all: rewrite <- !app_assoc.
  all: destruct (sftp_get W _ conn rem _) as [r|msg]; simpl.
  all: unfold bind; rewrite ?print_conn_extend; unfold extend; simpl.
  all: by rewrite <- ?app_assoc.
Qed.

End TaskTraces.

Section TaskSpec.
Context (W : World) (args : Args).




End TaskSpec.

(** ** The [ip] helper *)











(** ** [get] *)

Lemma string_length_app (a b : string) :
  String.length (a +:+ b) = String.length a + String.length b.
Proof. induction a as [|c a IH]; simpl; [done|]. by rewrite IH. Qed.





(** ** Steps of the dispatcher *)

Lemma task_done_Ret s s2 :
  task_done s = Ret s2 →
  ∃ u, unfinished_tasks s = S u ∧ s2 = set_unfinished u s.
Proof. unfold task_done. destruct (unfinished_tasks s); naive_solver. Qed.

Lemma task_done_Raise s e :
  task_done s = Raise e →
  unfinished_tasks s = 0 ∧ e = ValueError "task_done() called too many times".
Proof. unfold task_done. destruct (unfinished_tasks s); naive_solver. Qed.

(** All the ways a step can go. *)
Ltac step_cases H :=
  unfold step, main_step, worker_step, interrupt_step in H;
  repeat match type of H with
         | context [match ?x with _ => _ end] => destruct x eqn:?
         end;
  simplify_eq;
  repeat match goal with
         | E : task_done _ = Ret _ |- _ =>
             apply task_done_Ret in E as (? & ? & ->)
         | E : task_done _ = Raise _ |- _ =>
             apply task_done_Raise in E as [? ->]
         end;
  unfold leave_try, set_worker in *;
  try match goal with e : exn |- _ => destruct e end;
  simpl in *.

Lemma dequeued_snoc h e : dequeued (h ++ [e]) = dequeued h ++ dequeued [e].
Proof. apply omap_app. Qed.
Lemma put_ids_snoc h e : put_ids (h ++ [e]) = put_ids h ++ put_ids [e].
Proof. apply omap_app. Qed.
Lemma done_ids_snoc h e : done_ids (h ++ [e]) = done_ids h ++ done_ids [e].
Proof. apply omap_app. Qed.
Lemma finished_ids_snoc h e :
  finished_ids (h ++ [e]) = finished_ids h ++ finished_ids [e].
Proof. apply omap_app. Qed.
Lemma main_events_snoc h e :
  main_events (h ++ [e]) = main_events h ++ main_events [e].
Proof. apply omap_app. Qed.
Lemma begun_by_snoc w h e :
  begun_by w (h ++ [e]) = begun_by w h ++ begun_by w [e].
Proof. apply omap_app. Qed.
Lemma stopped_snoc h e : stopped (h ++ [e]) = stopped h || stopped [e].
Proof. apply existsb_app. Qed.

Lemma after_stop_snoc h e :
  after_stop (h ++ [e]) = if stopped h then after_stop h ++ [e] else [].
Proof.
  induction h as [|x h IH]; simpl.
  - by destruct e.
  - by destruct x.
Qed.

Create Rewrite HintDb obs.
#[local] Hint Rewrite dequeued_snoc put_ids_snoc done_ids_snoc
  finished_ids_snoc main_events_snoc begun_by_snoc stopped_snoc
  after_stop_snoc : obs.

Ltac obs := simpl in *; autorewrite with obs in *; simpl in *.

(** Which thread a lookup in the updated thread list found. *)
Ltac lookup_cases H :=
  match type of H with
  | <[_:=_]> _ !! _ = Some _ =>
      apply list_lookup_insert_Some in H as [(? & ? & ?)|(? & H)]
  | (_ ++ [_]) !! _ = Some _ =>
      apply lookup_snoc_Some in H as [(? & H)|(? & ?)]
  end; simplify_eq.

(** Use what the case analysis found about the state. *)
Ltac use_eqs :=
  repeat match goal with
         | E : main _ = _ |- _ => rewrite E
         | E : tasks _ = _ |- _ => rewrite E
         | E : stop _ = true |- _ => rewrite E
         | E : stop _ = false |- _ => rewrite E
         end.

Lemma exn_event_obs w e :
  dequeued [exn_event w e] = [] ∧ put_ids [exn_event w e] = [] ∧
  done_ids [exn_event w e] = [] ∧ finished_ids [exn_event w e] = [] ∧
  main_events [exn_event w e] = [] ∧ stopped [exn_event w e] = false ∧
  ∀ w', begun_by w' [exn_event w e] = [].
Proof. by destruct e. Qed.

Lemma run_id_after_exn e : run_id (after_exn e) = [].
Proof. by destruct e. Qed.

Lemma alive_after_exn e : alive (after_exn e) = false.
Proof. by destruct e. Qed.

Lemma running_ids_app ws1 ws2 :
  running_ids (ws1 ++ ws2) = running_ids ws1 ++ running_ids ws2.
Proof. unfold running_ids. by rewrite map_app, concat_app. Qed.

(** Replacing the state of one thread changes the running tasks by that
    thread's task only. *)
Lemma running_ids_insert ws w pc pc' :
  ws !! w = Some pc →
  ∃ others,
    running_ids ws ≡ₚ run_id pc ++ others ∧
    running_ids (<[w := pc']> ws) ≡ₚ run_id pc' ++ others.
Proof.
  intros Hw.
  exists (running_ids (take w ws) ++ running_ids (drop (S w) ws)).
  pose proof (lookup_lt_Some _ _ _ Hw) as Hlt.
  rewrite insert_take_drop by done.
  rewrite <- (take_drop_middle ws w pc Hw) at 1.
  rewrite !running_ids_app.
  change (running_ids (?x :: ?l)) with (run_id x ++ running_ids l).
  split; by rewrite Permutation_app_swap_app.
Qed.

(** ** Invariants of the dispatcher *)

Section DispatcherInvariants.
Context (W : World) (args : Args) (d : list string).

#[local] Abbreviation N := (Z.to_nat (num_workers args)).
#[local] Abbreviation reach := (reachable W args d).

Lemma basic_inv_init : basic_inv args (init args d).
Proof.
  split; simpl; try done.
  - unfold rest, all_tasks. simpl. by destruct (get_tasks args).
  - destruct (get_tasks args); simpl; split; (done || lia).
  - by left.
Qed.

Lemma basic_inv_step a s s' :
  basic_inv args s → step W args a s = Some s' → basic_inv args s'.
Proof.
  intros [Hq Hp Hs Hm Hrest] H. unfold rest in *.
  step_cases H; split; unfold rest in *; obs; use_eqs.
  all: rewrite ?app_nil_r, ?orb_false_r, ?orb_true_r, <- ?app_assoc in *.
  all: try done.
  all: try (by right).
  all: try (left; by destruct Hm).
  all: try (destruct Hrest as [Hw|Hrest]; [by rewrite Hw in *|by right]).
  all: try (destruct (main s) eqn:Hmain; destruct Hm as [Hw Hst];
            rewrite ?length_insert; try done;
            rewrite Hw in *; done).
  all: rewrite ?length_insert, ?length_app; simpl.
  all: try (destruct Hm as [Hw Hst]; split; (done || lia || (rewrite Hw; simpl; lia))).
  all: try congruence.
  all: try (rewrite Hp, !map_app; simpl; by rewrite <- app_assoc).
Qed.

Lemma reach_basic_inv s : reach s → basic_inv args s.
Proof.
  induction 1 as [|s a s' _ IH H]; [apply basic_inv_init|].
  by apply (basic_inv_step a s s').
Qed.

Lemma running_ids_lookup ws w id t :
  ws !! w = Some (WRun id t) → id ∈ running_ids ws.
Proof.
  intros Hw. rewrite <- (take_drop_middle ws w _ Hw), running_ids_app.
  apply elem_of_app. right. apply list_elem_of_here.
Qed.

Lemma done_le_finished h : length (done_ids h) ≤ length (finished_ids h).
Proof.
  induction h as [|e h IH]; [done|]. destruct e; simpl; lia.
Qed.

Lemma running_inv_init : running_inv (init args d).
Proof. by split. Qed.

(** A running task has not called [task_done] yet. *)
Lemma unfinished_positive s w id t :
  basic_inv args s → running_inv s →
  workers s !! w = Some (WRun id t) → 0 < unfinished_tasks s.
Proof.
  intros [_ Hp _ _ _] [Hr Hu _] Hw.
  apply running_ids_lookup in Hw.
  apply Permutation_length in Hr.
  rewrite length_app, length_map in Hr.
  apply (f_equal length) in Hp. rewrite length_map, length_app in Hp.
  pose proof (done_le_finished (history s)).
  destruct (running_ids (workers s)); [by apply elem_of_nil in Hw|].
  simpl in Hr. lia.
Qed.

Lemma running_inv_step a s s' :
  basic_inv args s → running_inv s → step W args a s = Some s' → running_inv s'.
Proof.
  intros Hb [Hr Hu Hrun] H.
  assert (∀ w id t, workers s !! w = Some (WRun id t) →
                    0 < unfinished_tasks s) as Hpos
    by (intros; by eapply unfinished_positive).
  step_cases H; split; obs.
  all: rewrite ?app_nil_r, ?running_ids_app, ?length_app, ?map_app in *.
  all: simpl; rewrite ?app_nil_r.
  all: try done.
  all: try lia.
  all: try (exfalso;
            match goal with
            | E : workers _ !! _ = Some (WRun _ _) |- _ =>
                apply Hpos in E; lia
            end).
  all: try match goal with
       | E : workers ?s0 !! ?w = Some ?pc
         |- _ ≡ₚ _ ++ running_ids (<[_:=?pc']> _) =>
           destruct (running_ids_insert (workers s0) w pc pc' E)
             as (others & Ho & ->); rewrite Hr, Ho; simpl; solve_Permutation
       end.
  all: intros w0 id0 t0 Hl; lookup_cases Hl; rewrite ?elem_of_app.
  all: eauto using list_elem_of_here.
Qed.

Lemma reach_running_inv s : reach s → running_inv s.
Proof.
  induction 1 as [|s a s' Hs IH H]; [apply running_inv_init|].
  eapply running_inv_step; eauto using reach_basic_inv.
Qed.

(** Only [run] lets an exception out, and it is the library's. *)
Lemma call_raises t y e y' :
  call W t y = (Raise e, y') →
  ∃ msg c cmd sd, e = LibraryError msg ∧ t = PartialRun c cmd sd.
Proof.
  destruct t as [c cmd sd|c r|c l r]; simpl.
  - pose proof (run_extend W c cmd sd y) as H. simpl in H. rewrite H.
    destruct (ssh_exec W _ c cmd sd); intros; simplify_eq.
    by eexists _, _, _, _.
  - pose proof (get_extend W c r y) as H. simpl in H. by rewrite H.
  - pose proof (put_extend W c l r y) as H. simpl in H. by rewrite H.
Qed.

Lemma lookup_insert_other (ws : list wpc) w w0 pc pc' x :
  ws !! w = Some pc → ws !! w0 = Some x → x ≠ pc →
  <[w := pc']> ws !! w0 = Some x.
Proof.
  intros Hw Hw0 Hne. rewrite list_lookup_insert_ne; [done|].
  intros ->. congruence.
Qed.

(** Membership in a history that grew by one event. *)
Ltac hist_in H :=
  rewrite ?elem_of_app, ?list_elem_of_singleton in H;
  repeat match type of H with
         | _ ∨ _ => destruct H as [H|H]
         end;
  simplify_eq.

Lemma in_snoc_l {A} (x e : A) h : x ∈ h → x ∈ h ++ [e].
Proof. intros. apply elem_of_app. by left. Qed.

Lemma in_snoc_r {A} (x : A) h : x ∈ h ++ [x].
Proof. apply elem_of_app. right. apply list_elem_of_here. Qed.

Lemma lookup_insert_here (ws : list wpc) w pc pc' :
  ws !! w = Some pc → <[w := pc']> ws !! w = Some pc'.
Proof.
  intros Hw. apply list_lookup_insert_eq. by eapply lookup_lt_Some.
Qed.

(** Take apart what is known about the new history and thread list. *)
Ltac unpack :=
  intros;
  repeat match goal with
         | H : _ ∈ _ ++ [_] |- _ => hist_in H
         | H : <[_:=_]> _ !! _ = Some _ |- _ => lookup_cases H
         | H : (_ ++ [_]) !! _ = Some _ |- _ => lookup_cases H
         end.

Lemma exit_inv_init : exit_inv W (init args d).
Proof.
  split; simpl; intros *; rewrite ?elem_of_nil, ?lookup_nil; try done.
  tauto.
Qed.

Lemma exit_inv_step a s s' :
  basic_inv args s → running_inv s → exit_inv W s →
  step W args a s = Some s' → exit_inv W s'.
Proof.
  intros Hb Hr [Hev Hre Hst Hem Hte Hdi Hra] H.
  assert (∀ w id t, workers s !! w = Some (WRun id t) →
                    0 < unfinished_tasks s) as Hpos
    by (intros; by eapply unfinished_positive).
  destruct Hb as [_ _ _ Hm Hrest]. destruct Hr as [_ _ Hrun].
  unfold rest in *.
  step_cases H; split; obs.
  all: try done.
  all: try (exfalso;
            match goal with
            | E : workers _ !! _ = Some (WRun _ _) |- _ =>
                apply Hpos in E; lia
            end).
  all: try match goal with
       | E : call _ _ _ = (Raise QueueEmpty, _) |- _ =>
           apply call_raises in E as (? & ? & ? & ? & ? & ?); done
       end.
  all: unfold rest; simpl; use_eqs; rewrite ?app_nil_r.
  all: unpack.
  all: try match goal with
       | |- _ ∉ _ => let Hin := fresh in intros Hin; unpack; by eapply Hte
       end.
  all: try match goal with
       | H : workers _ !! _ = Some WExit |- ∃ _, _ =>
           destruct (Hre _ H) as [? ?]
       | H : workers _ !! _ = Some (WDied _) |- ∃ _, _ =>
           destruct (Hdi _ _ H) as [? ?]
       | H : EvRaised _ _ _ ∈ _ |- ∃ _, _ =>
           destruct (Hra _ _ _ H) as (? & ? & ? & ?)
       end.
  all: try (eauto 6 using in_snoc_l, in_snoc_r, lookup_insert_here,
              lookup_app_l_Some; fail).
  all: try match goal with
       | H : EvExit _ SawEmpty ∈ _ |- _ =>
           destruct (Hem _ H); congruence
       end.
  all: try match goal with
       | H : EvExit _ _ ∈ _ |- _ !! _ = Some WExit =>
           apply Hev in H; by eapply lookup_insert_other
       end.
  all: try match goal with
       | E : workers _ !! _ = Some (WRun ?id ?t),
         C : call _ ?t ?y = (Raise _, _) |- ∃ _ _, _ =>
           exists t, y; split; [by eapply Hrun|by rewrite C]
       end.
  split; [done|]. destruct Hrest as [Hw|Hrest]; [|done].
  by rewrite Hw in Heqo.
Qed.

Lemma reach_exit_inv s : reach s → exit_inv W s.
Proof.
  induction 1 as [|s a s' Hs IH H]; [apply exit_inv_init|].
  eapply exit_inv_step; eauto using reach_basic_inv, reach_running_inv.
Qed.










End DispatcherInvariants.

(** ** Schedules *)

Section Schedules.
Context (W : World) (args : Args) (d : list string).

#[local] Abbreviation N := (Z.to_nat (num_workers args)).

Lemma exec_reachable_from sched s s' :
  reachable W args d s → exec W args sched s = Some s' →
  reachable W args d s'.
Proof.
  revert s. induction sched as [|a sched IH]; intros s Hs H; simpl in H.
  - by simplify_eq.
  - destruct (step W args a s) as [s1|] eqn:Hstep; [|done].
    eapply IH; [|done]. by eapply reach_step.
Qed.

Lemma exec_reachable sched s :
  exec W args sched (init args d) = Some s → reachable W args d s.
Proof. apply exec_reachable_from, reach_init. Qed.

Lemma enumerate_fst {A} (l : list A) :
  map fst (enumerate l) = seq 0 (length l).
Proof. unfold enumerate. apply fst_zip. by rewrite length_seq. Qed.

Lemma enumerate_snd {A} (l : list A) : map snd (enumerate l) = l.
Proof. unfold enumerate. apply snd_zip. by rewrite length_seq. Qed.

Lemma all_tasks_ids :
  map fst (all_tasks args)
  = seq 0 (length (default [] (get_tasks args))).
Proof. apply enumerate_fst. Qed.

Lemma all_tasks_NoDup : NoDup (map fst (all_tasks args)).
Proof. rewrite all_tasks_ids. apply NoDup_seq. Qed.

Lemma get_tasks_length ts :
  get_tasks args = Some ts → length ts = length (hosts args).
Proof.
  unfold get_tasks. repeat case_match; intros; simplify_eq;
    by rewrite !length_map.
Qed.

Lemma all_tasks_length : length (all_tasks args) ≤ length (hosts args).
Proof.
  unfold all_tasks, enumerate.
  rewrite length_zip_with, length_seq, Nat.min_id.
  destruct (get_tasks args) as [ts|] eqn:Hts; simpl; [|lia].
  by rewrite (get_tasks_length ts).
Qed.



End Schedules.

(** ** Every run can be brought to its end *)

Section Progress.
Context (W : World) (args : Args).

Lemma exec_app sched1 sched2 s s1 :
  exec W args sched1 s = Some s1 →
  exec W args (sched1 ++ sched2) s = exec W args sched2 s1.
Proof.
  revert s. induction sched1 as [|a sched1 IH]; intros s H; simpl in *.
  - by simplify_eq.
  - destruct (step W args a s); [by apply IH|done].
Qed.

(** A step of a worker leaves the main thread, the flag and the other
    workers alone, and brings the worker nearer to its end. *)
Lemma worker_step_frame w s s' :
  worker_step W w s = Some s' →
  main s' = main s ∧ stop s' = stop s ∧
  length (workers s') = length (workers s) ∧
  (∀ w' pc, w' ≠ w → workers s !! w' = Some pc →
            workers s' !! w' = Some pc) ∧
  work_left w s' < work_left w s.
Proof.
  intros H. change (step W args (Worker w) s = Some s') in H.
  unfold work_left.
  step_cases H; rewrite ?length_insert.
  all: repeat split; try done.
  all: try (intros w' pc' Hne Hw'; by rewrite list_lookup_insert_ne).
  all: use_eqs; erewrite ?lookup_insert_here by done.
  all: simpl; lia.
Qed.

Lemma worker_can_step w s pc :
  workers s !! w = Some pc → alive pc = true →
  is_Some (worker_step W w s).
Proof.
  intros Hw Ha. unfold worker_step. rewrite Hw.
  destruct pc; try done.
  - by destruct (stop s).
  - by destruct (tasks s) as [|[]].
  - destruct (call W t (sys s)) as [[] y]; [|done].
    by destruct (task_done _).
Qed.

(** One worker can be run to its end. *)
Lemma worker_can_finish k w s :
  work_left w s ≤ k →
  ∃ sched s',
    exec W args sched s = Some s' ∧
    main s' = main s ∧ stop s' = stop s ∧
    length (workers s') = length (workers s) ∧
    (∀ w' pc, w' ≠ w → workers s !! w' = Some pc →
              workers s' !! w' = Some pc) ∧
    (∀ pc, workers s' !! w = Some pc → alive pc = false).
Proof.
  revert s. induction k as [|k IH]; intros s Hk.
  - exists [], s. repeat split; try done.
    intros pc Hw. unfold work_left in Hk. rewrite Hw in Hk.
    destruct pc; simpl in *; (done || lia).
  - destruct (workers s !! w) as [pc|] eqn:Hw.
    2: { exists [], s. repeat split; try done. intros pc. by rewrite Hw. }
    destruct (alive pc) eqn:Ha.
    2: { exists [], s. repeat split; try done.
         intros pc'. rewrite Hw. by intros [= <-]. }
    destruct (worker_can_step w s pc Hw Ha) as [s1 Hs1].
    destruct (worker_step_frame w s s1 Hs1) as (Hm & Hst & Hl & Ho & Hlt).
    destruct (IH s1) as (sched & s' & He & Hm' & Hst' & Hl' & Ho' & Hd');
      [lia|].
    exists (Worker w :: sched), s'. simpl. rewrite Hs1.
    repeat split; try congruence; eauto.
Qed.

(** All the workers from [w] on can be run to their ends. *)
Lemma workers_can_finish n s w :
  length (workers s) ≤ w + n →
  (∀ w' pc, w' < w → workers s !! w' = Some pc → alive pc = false) →
  ∃ sched s',
    exec W args sched s = Some s' ∧ main s' = main s ∧
    ∀ w' pc, workers s' !! w' = Some pc → alive pc = false.
Proof.
  revert s w. induction n as [|n IH]; intros s w Hn Hdead.
  - exists [], s. repeat split; try done.
    intros w' pc Hw'. apply (Hdead w' pc); [|done].
    apply lookup_lt_Some in Hw'. lia.
  - destruct (worker_can_finish (work_left w s) w s)
      as (sched1 & s1 & He1 & Hm1 & _ & Hl1 & Ho1 & Hd1); [done|].
    destruct (IH s1 (S w)) as (sched2 & s2 & He2 & Hm2 & Hd2).
    + lia.
    + intros w' pc Hlt Hw'. destruct (decide (w' = w)) as [->|Hne].
      * by apply Hd1.
      * assert (w' < length (workers s)) as Hin
          by (rewrite <- Hl1; by eapply lookup_lt_Some).
        apply lookup_lt_is_Some_2 in Hin as [pc0 Hpc0].
        pose proof (Ho1 w' pc0 Hne Hpc0) as Hsame.
        assert (pc0 = pc) as -> by congruence.
        apply (Hdead w' pc); [lia|done].
    + exists (sched1 ++ sched2), s2.
      rewrite (exec_app sched1 sched2 s s1 He1).
      repeat split; [done|congruence|done].
Qed.

(** With the workers dead the joining loop goes through. *)
Lemma joins_can_finish n s j :
  main s = MJoin j → length (workers s) ≤ j + n →
  (∀ w pc, workers s !! w = Some pc → alive pc = false) →
  ∃ sched s', exec W args sched s = Some s' ∧ main s' = MReturned.
Proof.
  revert s j. induction n as [|n IH]; intros s j Hm Hn Hdead.
  - exists [Main]. simpl. unfold main_step. rewrite Hm.
    rewrite (lookup_ge_None_2 (workers s) j) by lia. eauto.
  - destruct (workers s !! j) as [pc|] eqn:Hj.
    + pose proof (Hdead j pc Hj) as Hpc.
      destruct (IH (note (EvJoined j) (set_main (MJoin (S j)) s)) (S j))
        as (sched & s' & He & Hm'); [done|simpl; lia|done|].
      exists (Main :: sched), s'. simpl. unfold main_step.
      by rewrite Hm, Hj, Hpc.
    + exists [Main]. simpl. unfold main_step. rewrite Hm, Hj. eauto.
Qed.

(** The start-up loop goes through. *)
Lemma spawns_can_finish k s :
  main s = MSpawn k →
  ∃ sched s', exec W args sched s = Some s' ∧ main s' = MJoin 0.
Proof.
  revert s. induction k as [|k IH]; intros s Hm.
  - exists [Main]. simpl. unfold main_step. rewrite Hm. eauto.
  - destruct (IH (note (EvStart (length (workers s)))
                    (set_main (MSpawn k)
                       (set_workers (workers s ++ [WCheck]) s))))
      as (sched & s' & He & Hm'); [done|].
    exists (Main :: sched), s'. simpl. unfold main_step. by rewrite Hm.
Qed.

(** The loop of puts goes through. *)
Lemma puts_can_finish r s :
  main s = MPut r →
  ∃ sched s', exec W args sched s = Some s' ∧ ∃ k, main s' = MSpawn k.
Proof.
  revert s. induction r as [|[id t] r IH]; intros s Hm.
  - exists [Main]. simpl. unfold main_step. rewrite Hm. eauto.
  - destruct (IH (note (EvPut id)
                    (set_main (MPut r)
                       (set_unfinished (S (unfinished_tasks s))
                          (set_tasks (tasks s ++ [(id, t)]) s)))))
      as (sched & s' & He & Hm'); [done|].
    exists (Main :: sched), s'. simpl. unfold main_step. by rewrite Hm.
Qed.

(** From every state in which the main thread is still at work, some
    schedule without interrupt brings [run_workers] to its return. *)
Lemma run_workers_can_return s :
  (∃ r, main s = MPut r) ∨ (∃ k, main s = MSpawn k) ∨ (∃ j, main s = MJoin j) →
  ∃ sched s', exec W args sched s = Some s' ∧ main s' = MReturned.
Proof.
  assert (∀ s j, main s = MJoin j →
            ∃ sched s', exec W args sched s = Some s' ∧ main s' = MReturned)
    as Hjoin.
  { clear s. intros s j Hm.
    destruct (workers_can_finish (length (workers s)) s 0)
      as (sched1 & s1 & He1 & Hm1 & Hd1); [lia|intros; lia|].
    destruct (joins_can_finish (length (workers s1)) s1 j)
      as (sched2 & s2 & He2 & Hm2); [congruence|lia|done|].
    exists (sched1 ++ sched2), s2.
    by rewrite (exec_app sched1 sched2 s s1 He1). }
  assert (∀ s k, main s = MSpawn k →
            ∃ sched s', exec W args sched s = Some s' ∧ main s' = MReturned)
    as Hspawn.
  { clear s. intros s k Hm.
    destruct (spawns_can_finish k s Hm) as (sched1 & s1 & He1 & Hm1).
    destruct (Hjoin s1 0 Hm1) as (sched2 & s2 & He2 & Hm2).
    exists (sched1 ++ sched2), s2.
    by rewrite (exec_app sched1 sched2 s s1 He1). }
  intros [[r Hm]|[[k Hm]|[j Hm]]]; [|by eapply Hspawn|by eapply Hjoin].
  destruct (puts_can_finish r s Hm) as (sched1 & s1 & He1 & k & Hm1).
  destruct (Hspawn s1 k Hm1) as (sched2 & s2 & He2 & Hm2).
  exists (sched1 ++ sched2), s2.
  by rewrite (exec_app sched1 sched2 s s1 He1).
Qed.

(** In particular [main], once [get_tasks] has returned its list, can
    always reach the return of [run_workers]. *)
Lemma main_can_return d ts :
  get_tasks args = Some ts →
  ∃ sched s, exec W args sched (init args d) = Some s ∧ main s = MReturned.
Proof.
  intros Hts. apply run_workers_can_return. left.
  exists (enumerate ts). unfold init. simpl. by rewrite Hts.
Qed.

End Progress.

(** Run a schedule on a concrete input and keep the outcome as [E]. *)
Ltac run_schedule W a d sched E :=
  let r := eval vm_compute in (exec W a sched (init a d)) in
  lazymatch r with
  | Some ?s0 =>
      assert (exec W a sched (init a d) = Some s0) as E
        by (vm_compute; reflexivity)
  end.

(** ** The dispatcher: at most once (C5) *)

(** C5: in every run, no task is put twice, no task is taken from the queue
    twice, and no task's call ends twice; a call that ended belongs to a
    task that was taken, and a task that was taken had been put. *)
Theorem each_task_at_most_once (W : World) (args : Args) (d : list string)
    (sched : list actor) (s : Pool) :
  exec W args sched (init args d) = Some s → at_most_once (history s).
Proof.
  intros Hs%exec_reachable. unfold at_most_once.
  destruct (reach_basic_inv W args d s Hs) as [Hq Hp _ _ _].
  destruct (reach_running_inv W args d s Hs) as [Hr _ _].
  pose proof (all_tasks_NoDup args) as Hnd.
  rewrite <- Hq, app_assoc, map_app, <- Hp in Hnd.
  apply NoDup_app in Hnd as (Hnd & _ & _).
  assert (NoDup (map fst (dequeued (history s)))) as Hdq.
  { rewrite Hp, map_app in Hnd. by apply NoDup_app in Hnd as (? & _ & _). }
  split; [done|]. split; [done|]. split; [|split].
  - rewrite Hr in Hdq. by apply NoDup_app in Hdq as (? & _ & _).
  - intros id Hid. rewrite Hr. apply elem_of_app. by left.
  - intros id Hid. rewrite Hp, map_app. apply elem_of_app. by left.
Qed.

(** ** The dispatcher: order of the main thread (C6) *)


(** ** The dispatcher: size of the pool (C3) *)

(** With [--threads -1] no thread is started. *)
Lemma negative_threads_start_none :
  ¬ starts_min_threads calm (argv "run" (-1) ["h1"]) [].
Proof.
  intros H.
  run_schedule calm (argv "run" (-1) ["h1"]) (@nil string)
    [Main; Main; Main; Main] E.
  specialize (H _ _ E eq_refl). simpl in H. discriminate.
Qed.

(** C3, amended: there are never more than
    [max(0, min(args.threads, len(args.hosts)))] worker threads; once the
    start-up loop of [run_workers] is over there are exactly that many; and
    only the main thread inside that loop adds one: no other step of any
    thread changes their number. *)
Theorem pool_size_fixed (W : World) (args : Args) (d : list string)
    (sched : list actor) (s : Pool) :
  exec W args sched (init args d) = Some s → pool_sized W args s.
Proof.
  intros Hs%exec_reachable. unfold pool_sized.
  destruct (reach_basic_inv W args d s Hs) as [_ _ _ Hm _].
  split; [|split].
  - destruct (main s); destruct Hm as [Hlen _]; try rewrite Hlen; simpl; lia.
  - destruct (main s); try done; destruct Hm as [Hlen _]; lia.
  - intros a s' H. clear Hm.
    step_cases H; rewrite ?length_insert; eauto.
Qed.

(** ** The dispatcher: draining the queue (C2) *)





(** ** The dispatcher: the worker loop and the stop flag (C4) *)



(** ** The theorems at concrete inputs *)






Lemma each_task_at_most_once_witness :
  ∃ s, exec calm (argv "get" 2 ["h1"; "h2"]) full_run
         (init (argv "get" 2 ["h1"; "h2"]) []) = Some s ∧
       at_most_once (history s).
Proof.
  run_schedule calm (argv "get" 2 ["h1"; "h2"]) (@nil string) full_run E.
  eexists. split; [exact E|].
  apply (each_task_at_most_once calm (argv "get" 2 ["h1"; "h2"]) [] full_run). exact E.
Defined.


Lemma pool_size_fixed_witness :
  ∃ s, exec calm (argv "get" 2 ["h1"; "h2"]) full_run
         (init (argv "get" 2 ["h1"; "h2"]) []) = Some s ∧
       pool_sized calm (argv "get" 2 ["h1"; "h2"]) s.
Proof.
  run_schedule calm (argv "get" 2 ["h1"; "h2"]) (@nil string) full_run E.
  eexists. split; [exact E|].
  apply (pool_size_fixed calm (argv "get" 2 ["h1"; "h2"]) [] full_run). exact E.
Defined.



(** * Further properties of the code *)

(** ** [put], [get] and [run] *)


(** X2: [run] raises exactly when the remote call itself fails, and then
    logs nothing more; a command that ran, whether it succeeded or not,
    makes [run] return after logging [ok] or [fail] and then the command's
    output. *)
Theorem run_raises_only_on_failure (W : World) (conn : Connection)
    (cmd : string) (sd : bool) (s : Sys) :
  ∃ pre,
    remote_ops pre = [] ∧
    match ssh_exec W (trace s ++ pre) conn cmd sd with
    | Answer r =>
        run W conn cmd sd s
        = (Ret tt,
           extend s (pre ++ [SshRun conn cmd sd (Answer r)]
                     ++ conn_lines W conn (if ok r then OK W else FAIL W)
                     ++ conn_lines W conn (stdout r)))
    | Failure msg =>
        run W conn cmd sd s
        = (Raise (LibraryError msg),
           extend s (pre ++ [SshRun conn cmd sd (Failure msg)]))
    end.
Proof.
  pose proof (run_extend W conn cmd sd s) as H. simpl in H.
  exists (conn_lines W conn (yellow W "run" +:+ tab +:+ cmd)).
  split; [apply remote_ops_lines|].
  destruct (ssh_exec W _ conn cmd sd); exact H.
Qed.

(** ** [chunks] at its edges *)

(** X3: with a step of zero [chunks] raises the [ValueError] of [range];
    with a negative step it yields nothing, whatever the list. *)
Theorem chunks_nonpositive {A} (l : list A) (n : Z) :
  (n ≤ 0)%Z →
  chunks l n
  = if (n =? 0)%Z then Raise (ValueError "range() arg 3 must not be zero")
    else Ret [].
Proof.
  intros Hn. unfold chunks, range.
  destruct (Z.eqb_spec n 0) as [->|Hne]; [done|].
  destruct (Z.ltb_spec 0 n) as [?|_]; [lia|].
  set (len := Z.of_nat (length l)).
  assert ((0 - len - n - 1) / - n < 1)%Z as Hq
    by (apply Z.div_lt_upper_bound; lia).
  replace (Z.to_nat ((0 - len - n - 1) / - n)) with 0 by lia.
  done.
Qed.

Lemma chunks_nonpositive_witness :
  (-3 ≤ 0)%Z ∧ chunks [1; 2; 3] (-3) = Ret [].
Proof.
  split; [lia|]. apply (chunks_nonpositive [1; 2; 3] (-3)). lia.
Defined.

(** X4: a list no longer than [n] comes back as a single chunk, the list
    itself, and the empty list as no chunk at all. *)
Theorem chunks_short {A} (l : list A) (n : Z) :
  (0 < n)%Z → (Z.of_nat (length l) ≤ n)%Z →
  chunks l n = Ret (match l with [] => [] | _ => [l] end).
Proof.
  intros Hn Hlen. rewrite chunks_unfold by done. unfold chunk_count.
  destruct l as [|x l].
  - simpl. rewrite Z.div_small by lia. done.
  - set (len := Z.of_nat (length (x :: l))) in *.
    assert (0 < len)%Z by (unfold len; simpl; lia).
    assert ((len - 0 + n - 1) / n = 1)%Z as ->.
    { symmetry. apply (Z.div_unique_pos _ _ 1 (len - 1)); lia. }
    simpl. rewrite take_ge; [done|]. simpl. unfold len in Hlen.
    simpl in Hlen. lia.
Qed.

Lemma chunks_short_witness :
  (0 < 100)%Z ∧ (Z.of_nat (length ["i-1"; "i-2"]) ≤ 100)%Z ∧
  chunks ["i-1"; "i-2"] 100 = Ret [["i-1"; "i-2"]].
Proof.
  split; [lia|]. split; [simpl; lia|].
  apply (chunks_short ["i-1"; "i-2"] 100); simpl; lia.
Defined.

(** X5: for [n > 0] there are [ceil(len(l) / n)] chunks, and every chunk
    but the last has exactly [n] elements. *)
Theorem chunks_sizes {A} (l : list A) (n : Z) :
  (0 < n)%Z →
  ∃ cs, chunks l n = Ret cs ∧
        Z.of_nat (length cs) = ((Z.of_nat (length l) + n - 1) / n)%Z ∧
        ∀ k c, cs !! k = Some c → S k < length cs →
               Z.of_nat (length c) = n.
Proof.
  intros Hn. rewrite chunks_unfold by done. eexists. split; [done|].
  rewrite length_map, length_seq. split.
  - unfold chunk_count. rewrite Z2Nat.id; [f_equal; lia|].
    apply Z.div_pos; lia.
  - intros k c Hk Hlast. rewrite list_lookup_fmap in Hk.
    destruct (seq 0 (chunk_count l n) !! k) as [k'|] eqn:Hseq; [|done].
    apply lookup_seq in Hseq as [-> _]. simpl in Hk. simplify_eq.
    pose proof (chunk_count_inside l n (S k) Hn Hlast) as Hin.
    rewrite length_take, length_drop. simpl in *. lia.
Qed.

Lemma chunks_sizes_witness :
  (0 < 2)%Z ∧
  ∃ cs, chunks [1; 2; 3; 4; 5] 2 = Ret cs ∧
        Z.of_nat (length cs)
        = ((Z.of_nat (length [1; 2; 3; 4; 5]) + 2 - 1) / 2)%Z ∧
        ∀ k c, cs !! k = Some c → S k < length cs →
               Z.of_nat (length c) = 2%Z.
Proof.
  split; [lia|]. apply (chunks_sizes [1; 2; 3; 4; 5] 2). lia.
Defined.

(** ** [print_ips] without instances *)

(** X6: when there is no instance id at all (an auto scaling group or a
    load balancer without instances), [print_ips] asks EC2 nothing and logs
    nothing. *)
Theorem print_ips_nothing (W : World) (region : option string)
    (gen : M (list string)) (public : bool) (s s1 : Sys) :
  gen s = (Ret [], s1) →
  print_ips W region gen public s = (Ret tt, s1).
Proof.
  intros Hgen. unfold print_ips, bind. by rewrite Hgen.
Qed.

Lemma print_ips_nothing_witness :
  asgs_to_instance_ids calm None ["web"] sys0
  = (Ret [], extend sys0 [DescribeAsgs None ["web"] []]) ∧
  print_ips calm None (asgs_to_instance_ids calm None ["web"]) true sys0
  = (Ret tt, extend sys0 [DescribeAsgs None ["web"] []]).
Proof.
  split; [reflexivity|].
  apply (print_ips_nothing calm None
           (asgs_to_instance_ids calm None ["web"]) true sys0).
  reflexivity.
Defined.

(** ** [basename] and the local path of [get] *)

Lemma rfind_slash_from_none i last f :
  has_slash f = false → rfind_slash_from i last f = last.
Proof.
  revert i last. induction f as [|c f IH]; intros i last Hf; [done|].
  simpl in *. apply orb_false_iff in Hf as [Hc Hf]. rewrite Hc. by apply IH.
Qed.

Lemma rfind_slash_from_last i last dir f :
  has_slash f = false →
  rfind_slash_from i last (dir +:+ "/" +:+ f)
  = (i + Z.of_nat (String.length dir))%Z.
Proof.
  intros Hf. revert i last. induction dir as [|c dir IH]; intros i last.
  - change ("" +:+ "/" +:+ f) with (String "/" f). simpl.
    rewrite rfind_slash_from_none by done. lia.
  - change (String c dir +:+ "/" +:+ f) with (String c (dir +:+ "/" +:+ f)).
    simpl. rewrite IH. lia.
Qed.

Lemma string_drop_app dir f :
  string_drop (String.length dir) (dir +:+ f) = f.
Proof. induction dir as [|c dir IH]; [by destruct f|exact IH]. Qed.

Lemma string_app_assoc (a b c : string) :
  (a +:+ b) +:+ c = a +:+ b +:+ c.
Proof.
  induction a as [|x a IH]; [done|].
  change (String x ((a +:+ b) +:+ c) = String x (a +:+ b +:+ c)).
  by rewrite IH.
Qed.

(** Every path is free of slashes or has a last slash. *)
Lemma last_slash p :
  has_slash p = false ∨
  ∃ dir f, p = dir +:+ "/" +:+ f ∧ has_slash f = false.
Proof.
  induction p as [|c p IH]; [by left|].
  destruct IH as [Hp|(dir & f & -> & Hf)].
  - simpl. destruct (Ascii.eqb_spec c "/") as [->|Hc].
    + right. by exists "", p.
    + left. by rewrite Hp.
  - right. by exists (String c dir), f.
Qed.

(** X7: [basename] is the part after the last slash: it is the whole path
    when there is no slash, it is [f] for [dir/f] when [f] has no slash,
    and it never contains a slash; so [get] stores a download directly
    in the host's directory, under a name that depends on the last
    component of the remote path only. *)
Theorem basename_last_component (conn : Connection) (p dir f : string) :
  has_slash f = false →
  basename f = f ∧
  basename (dir +:+ "/" +:+ f) = f ∧
  has_slash (basename p) = false ∧
  get_local conn (dir +:+ "/" +:+ f) = host conn +:+ "/" +:+ f.
Proof.
  intros Hf.
  assert (∀ g, has_slash g = false → basename g = g) as Hplain.
  { intros g Hg. unfold basename, rfind_slash.
    by rewrite rfind_slash_from_none. }
  assert (∀ d g, has_slash g = false → basename (d +:+ "/" +:+ g) = g)
    as Hlast.
  { intros d g Hg. unfold basename, rfind_slash.
    rewrite rfind_slash_from_last by done.
    replace (Z.to_nat (0 + Z.of_nat (String.length d) + 1))
      with (String.length (d +:+ "/")).
    - rewrite <- string_app_assoc. apply string_drop_app.
    - rewrite string_length_app. simpl. lia. }
  split; [by apply Hplain|]. split; [by apply Hlast|]. split.
  - destruct (last_slash p) as [Hp|(d & g & -> & Hg)].
    + by rewrite Hplain.
    + by rewrite Hlast.
  - unfold get_local. by rewrite Hlast.
Qed.

Lemma basename_last_component_witness :
  has_slash "motd" = false ∧
  basename "motd" = "motd" ∧
  basename ("/etc" +:+ "/" +:+ "motd") = "motd" ∧
  has_slash (basename "/var/log/") = false ∧
  get_local (connection (argv "get" 1 ["h1"]) "h1")
    ("/etc" +:+ "/" +:+ "motd")
  = host (connection (argv "get" 1 ["h1"]) "h1") +:+ "/" +:+ "motd".
Proof.
  split; [reflexivity|].
  apply (basename_last_component
           (connection (argv "get" 1 ["h1"]) "h1") "/var/log/" "/etc" "motd").
  reflexivity.
Defined.

(** ** Further properties of the dispatcher *)

Lemma get_tasks_elem (args : Args) ts t :
  get_tasks args = Some ts → t ∈ ts →
  task_tool t = tool args ∧ host (task_conn t) ∈ hosts args.
Proof.
  unfold get_tasks. intros Hts Ht.
  destruct (String.eqb_spec (tool args) "run") as [Hr|_];
    [|destruct (String.eqb_spec (tool args) "get") as [Hg|_];
      [|destruct (String.eqb_spec (tool args) "put") as [Hp|_]]];
    simplify_eq.
  all: rewrite map_map in Ht.
  all: apply list_elem_of_fmap in Ht as (h & -> & Hh); by simpl.
Qed.

Lemma all_tasks_elem (args : Args) id t :
  (id, t) ∈ all_tasks args →
  task_tool t = tool args ∧ host (task_conn t) ∈ hosts args.
Proof.
  unfold all_tasks. intros Hin%elem_of_zip_r.
  destruct (get_tasks args) as [ts|] eqn:Hts; simpl in Hin.
  - by eapply get_tasks_elem.
  - by apply elem_of_nil in Hin.
Qed.



(** X9: the queue is first in, first out: at any time the tasks taken so
    far, the tasks waiting in the queue and the tasks not yet put are, in
    this order, the list [get_tasks] returned; so tasks are started in the
    order of [args.hosts]. *)
Theorem tasks_taken_in_order (W : World) (args : Args) (d : list string)
    (sched : list actor) (s : Pool) :
  exec W args sched (init args d) = Some s →
  dequeued (history s) ++ tasks s ++ rest s = all_tasks args ∧
  map fst (dequeued (history s)) = seq 0 (length (dequeued (history s))).
Proof.
  intros Hs%exec_reachable.
  destruct (reach_basic_inv W args d s Hs) as [Hq _ _ _ _].
  split; [done|].
  pose proof (all_tasks_ids args) as Hids.
  rewrite <- Hq, map_app in Hids.
  assert (length (dequeued (history s))
          ≤ length (default [] (get_tasks args))) as Hlen.
  { apply (f_equal length) in Hids.
    rewrite length_app, !length_map, length_seq in Hids. lia. }
  apply (f_equal (take (length (dequeued (history s))))) in Hids.
  rewrite take_app_length' in Hids by (by rewrite length_map).
  rewrite take_seq in Hids. rewrite Hids. f_equal. lia.
Qed.

Lemma tasks_taken_in_order_witness :
  ∃ s, exec calm (argv "get" 2 ["h1"; "h2"]) full_run
         (init (argv "get" 2 ["h1"; "h2"]) []) = Some s ∧
       dequeued (history s) ++ tasks s ++ rest s
       = all_tasks (argv "get" 2 ["h1"; "h2"]) ∧
       map fst (dequeued (history s))
       = seq 0 (length (dequeued (history s))).
Proof.
  run_schedule calm (argv "get" 2 ["h1"; "h2"]) (@nil string) full_run E.
  eexists. split; [exact E|].
  apply (tasks_taken_in_order calm (argv "get" 2 ["h1"; "h2"]) [] full_run).
  exact E.
Defined.

(** X10: a worker thread dies only in one way: the tool is run and the
    remote call of a task it had taken failed; the exception is the
    library's.  So with get or put no worker ever dies, and [task_done] is
    never called too often. *)
Theorem worker_dies_only_in_run (W : World) (args : Args) (d : list string)
    (sched : list actor) (s : Pool) (w : nat) (e : exn) :
  exec W args sched (init args d) = Some s →
  workers s !! w = Some (WDied e) →
  tool args = "run" ∧
  ∃ msg id c,
    e = LibraryError msg ∧
    EvRaised w id e ∈ history s ∧
    (id, PartialRun c (command args) (sudo args)) ∈ dequeued (history s).
Proof.
  intros Hs%exec_reachable Hw.
  destruct (reach_basic_inv W args d s Hs) as [Hq _ _ _ _].
  destruct (reach_exit_inv W args d s Hs) as [_ _ _ _ _ Hdied Hraised].
  destruct (Hdied w e Hw) as [id Hid].
  destruct (Hraised w id e Hid) as (t & y & Hdq & Hcall).
  destruct (call W t y) as [r y'] eqn:Hc. simpl in Hcall. subst r.
  apply call_raises in Hc as (msg & c & cmd & sd & -> & ->).
  assert ((id, PartialRun c cmd sd) ∈ all_tasks args) as Hall
    by (rewrite <- Hq; apply elem_of_app; by left).
  pose proof (all_tasks_elem args _ _ Hall) as [Htool _]. simpl in Htool.
  split; [done|]. exists msg, id, c. split; [done|]. split; [done|].
  apply elem_of_zip_r in Hall.
  destruct (get_tasks args) as [ts|] eqn:Hts; simpl in Hall;
    [|by apply elem_of_nil in Hall].
  unfold get_tasks in Hts. rewrite <- Htool in Hts. simpl in Hts.
  simplify_eq. rewrite map_map in Hall.
  apply list_elem_of_fmap in Hall as (h & Heq & _). by simplify_eq.
Qed.

Lemma worker_dies_only_in_run_witness :
  ∃ s, exec h1_down (argv "run" 1 ["h1"; "h2"])
         [Main; Main; Main; Main; Worker 0; Worker 0; Worker 0]
         (init (argv "run" 1 ["h1"; "h2"]) []) = Some s ∧
       workers s !! 0 = Some (WDied (LibraryError "timed out")) ∧
       tool (argv "run" 1 ["h1"; "h2"]) = "run" ∧
       ∃ msg id c,
         LibraryError "timed out" = LibraryError msg ∧
         EvRaised 0 id (LibraryError "timed out") ∈ history s ∧
         (id, PartialRun c (command (argv "run" 1 ["h1"; "h2"]))
                (sudo (argv "run" 1 ["h1"; "h2"])))
         ∈ dequeued (history s).
Proof.
  run_schedule h1_down (argv "run" 1 ["h1"; "h2"]) (@nil string)
    [Main; Main; Main; Main; Worker 0; Worker 0; Worker 0] E.
  eexists. split; [exact E|]. split; [reflexivity|].
  apply (worker_dies_only_in_run h1_down (argv "run" 1 ["h1"; "h2"]) []
           [Main; Main; Main; Main; Worker 0; Worker 0; Worker 0] _ 0).
  - exact E.
  - reflexivity.
Defined.

Lemma raised_ids_snoc h e :
  raised_ids (h ++ [e]) = raised_ids h ++ raised_ids [e].
Proof. apply omap_app. Qed.

Lemma finished_done_raised h :
  length (finished_ids h) = length (done_ids h) + length (raised_ids h).
Proof.
  induction h as [|e h IH]; [done|]. destruct e; simpl; lia.
Qed.

(** X11: the counter of unfinished tasks of the queue always equals the
    number of tasks waiting, plus those being run, plus those whose call
    raised: a task that raised is never marked done. *)
Theorem unfinished_counts (W : World) (args : Args) (d : list string)
    (sched : list actor) (s : Pool) :
  exec W args sched (init args d) = Some s →
  unfinished_tasks s
  = length (tasks s) + length (running_ids (workers s))
    + length (raised_ids (history s)).
Proof.
  intros Hs%exec_reachable.
  destruct (reach_basic_inv W args d s Hs) as [_ Hp _ _ _].
  destruct (reach_running_inv W args d s Hs) as [Hperm Hu _].
  apply Permutation_length in Hperm.
  rewrite length_map, length_app in Hperm.
  apply (f_equal length) in Hp. rewrite length_map, length_app in Hp.
  pose proof (finished_done_raised (history s)). lia.
Qed.

Lemma unfinished_counts_witness :
  ∃ s, exec h1_down (argv "run" 1 ["h1"; "h2"])
         [Main; Main; Main; Main; Worker 0; Worker 0; Worker 0]
         (init (argv "run" 1 ["h1"; "h2"]) []) = Some s ∧
       unfinished_tasks s
       = length (tasks s) + length (running_ids (workers s))
         + length (raised_ids (history s)).
Proof.
  run_schedule h1_down (argv "run" 1 ["h1"; "h2"]) (@nil string)
    [Main; Main; Main; Main; Worker 0; Worker 0; Worker 0] E.
  eexists. split; [exact E|].
  apply (unfinished_counts h1_down (argv "run" 1 ["h1"; "h2"]) []
           [Main; Main; Main; Main; Worker 0; Worker 0; Worker 0]).
  exact E.
Defined.










(** ** What a run does to the outside world *)







(** Every task makes one remote call, whatever it answers. *)
Lemma call_one_remote W t y :
  length (remote_ops (trace (call W t y).2))
  = S (length (remote_ops (trace y))).
Proof.
  destruct t as [c cmd sd|c r|c l r]; simpl.
  - pose proof (run_extend W c cmd sd y) as H. simpl in H. rewrite H.
    destruct (ssh_exec W _ c cmd sd); simpl.
    all: rewrite !remote_ops_app, ?remote_ops_lines, !length_app; simpl.
    all: rewrite ?remote_ops_app, ?remote_ops_lines; simpl; lia.
  - pose proof (get_extend W c r y) as H. simpl in H. rewrite H. simpl.
    rewrite !remote_ops_app, ?remote_ops_lines, !length_app; simpl.
    rewrite ?remote_ops_outcome; simpl; lia.
  - pose proof (put_extend W c l r y) as H. simpl in H. rewrite H. simpl.
    rewrite !remote_ops_app, ?remote_ops_lines, !length_app; simpl.
    rewrite ?remote_ops_outcome; simpl; lia.
Qed.




Lemma reach_remote_ops W args d s :
  reachable W args d s →
  length (remote_ops (trace (sys s))) = length (finished_ids (history s)).
Proof.
  induction 1 as [|s a s' Hs IH H]; [done|].
  step_cases H; obs; rewrite ?length_app, ?remote_ops_app; simpl; try done.
  all: try match goal with
       | C : call _ ?t ?y = (_, _) |- _ =>
           pose proof (call_one_remote W t y) as Hone;
           rewrite C in Hone; simpl in Hone; lia
       end.
  all: rewrite ?app_nil_r; lia.
Qed.

(** X15: the tools make one remote call for each task that has ended, so
    never more remote calls than there are hosts on the command line. *)
Theorem one_remote_call_per_task (W : World) (args : Args)
    (d : list string) (sched : list actor) (s : Pool) :
  exec W args sched (init args d) = Some s →
  length (remote_ops (trace (sys s))) = length (finished_ids (history s)) ∧
  length (remote_ops (trace (sys s))) ≤ length (hosts args).
Proof.
  intros Hs%exec_reachable.
  pose proof (reach_remote_ops W args d s Hs) as Hops.
  split; [done|].
  destruct (reach_basic_inv W args d s Hs) as [Hq _ _ _ _].
  destruct (reach_running_inv W args d s Hs) as [Hperm _ _].
  apply Permutation_length in Hperm.
  rewrite length_map, length_app in Hperm.
  apply (f_equal length) in Hq. rewrite !length_app in Hq.
  pose proof (all_tasks_length args). lia.
Qed.

Lemma one_remote_call_per_task_witness :
  ∃ s, exec h1_down (argv "run" 1 ["h1"; "h2"])
         [Main; Main; Main; Main; Worker 0; Worker 0; Worker 0]
         (init (argv "run" 1 ["h1"; "h2"]) []) = Some s ∧
       length (remote_ops (trace (sys s)))
       = length (finished_ids (history s)) ∧
       length (remote_ops (trace (sys s)))
       ≤ length (hosts (argv "run" 1 ["h1"; "h2"])).
Proof.
  run_schedule h1_down (argv "run" 1 ["h1"; "h2"]) (@nil string)
    [Main; Main; Main; Main; Worker 0; Worker 0; Worker 0] E.
  eexists. split; [exact E|].
  apply (one_remote_call_per_task h1_down (argv "run" 1 ["h1"; "h2"]) []
           [Main; Main; Main; Main; Worker 0; Worker 0; Worker 0] _ E).
Defined.

(** ** The stop flag *)

Lemma quiet_step W args a s s' :
  step W args a s = Some s' → interrupted [a] = false →
  quiet (main s) = true → quiet (main s') = true.
Proof.
  intros H Ha Hq. destruct a; [| |done].
  all: step_cases H; try done.
  by rewrite Heqm.
Qed.

Lemma quiet_exec W args sched s s' :
  exec W args sched s = Some s' → interrupted sched = false →
  quiet (main s) = true → quiet (main s') = true.
Proof.
  revert s. induction sched as [|a sched IH]; intros s H Hi Hq; simpl in H.
  - by simplify_eq.
  - destruct (step W args a s) as [s1|] eqn:Hstep; [|done].
    simpl in Hi. apply orb_false_iff in Hi as [Ha Hi].
    apply (IH s1); [done|done|].
    eapply quiet_step; [done| |done]. simpl. by rewrite Ha.
Qed.

(** X16: the stop flag is set by the handler of [KeyboardInterrupt] and by
    nothing else: it is set exactly when the handler has run to its end.
    So in a run without keyboard interrupt the flag stays clear, and a
    worker thread that returned did so because it found the queue empty,
    with no task left to be put. *)
Theorem stop_only_by_handler (W : World) (args : Args) (d : list string)
    (sched : list actor) (s : Pool) :
  exec W args sched (init args d) = Some s →
  (stop s = true ↔ main s = MStopped) ∧
  (interrupted sched = false →
   stop s = false ∧
   ∀ w r, EvExit w r ∈ history s →
          r = SawEmpty ∧ tasks s = [] ∧ rest s = []).
Proof.
  intros Hs. pose proof (exec_reachable _ _ _ _ _ Hs) as Hr.
  destruct (reach_basic_inv W args d s Hr) as [_ _ _ Hm _].
  destruct (reach_exit_inv W args d s Hr) as [_ _ Hst Hem Hte _ _].
  assert (stop s = true ↔ main s = MStopped) as Hiff.
  { destruct (main s); destruct Hm as [_ Hm]; rewrite Hm; by split. }
  split; [done|]. intros Hi.
  assert (quiet (main s) = true) as Hq.
  { apply (quiet_exec W args sched _ _ Hs Hi). unfold init. simpl.
    by destruct (get_tasks args). }
  assert (stop s = false) as Hstop.
  { destruct (stop s); [|done]. destruct Hiff as [Hiff _].
    rewrite Hiff in Hq; done. }
  split; [done|]. intros w [] Hev.
  - apply Hst in Hev. congruence.
  - split; [done|]. by eapply Hem.
  - by apply Hte in Hev.
Qed.

Lemma stop_only_by_handler_witness :
  ∃ s, exec calm (argv "get" 2 ["h1"; "h2"]) full_run
         (init (argv "get" 2 ["h1"; "h2"]) []) = Some s ∧
       (stop s = true ↔ main s = MStopped) ∧
       (interrupted full_run = false →
        stop s = false ∧
        ∀ w r, EvExit w r ∈ history s →
               r = SawEmpty ∧ tasks s = [] ∧ rest s = []).
Proof.
  run_schedule calm (argv "get" 2 ["h1"; "h2"]) (@nil string) full_run E.
  eexists. split; [exact E|].
  apply (stop_only_by_handler calm (argv "get" 2 ["h1"; "h2"]) [] full_run
           _ E).
Defined.
